(** * ArrowC: the C Data Interface header and the release-clearing adapter

    A shallow embedding of [Sources/ArrowC/include/ArrowCData.h] and
    [Sources/ArrowC/ArrowCData.c].  The two descriptor structs become records
    whose fields are machine values ([Z]: 64-bit integers and addresses, the
    null pointer being [0]); the memory the adapter works on is a finite map
    from addresses to descriptors; the two C functions are programs of a small
    monad that threads the memory, records every access in a trace and
    distinguishes a normal return from behaviour C leaves undefined. *)

From Stdlib Require Import ZArith List Lia.
From stdpp Require Import base strings gmap list.

Local Open Scope Z_scope.

(** ** The header: flag constants *)

Definition ARROW_FLAG_DICTIONARY_ORDERED : Z := 1.
Definition ARROW_FLAG_NULLABLE : Z := 2.
Definition ARROW_FLAG_MAP_KEYS_SORTED : Z := 4.

(** The flags the header defines, in the order of their definition. *)
Definition arrow_flags : list Z :=
  [ARROW_FLAG_DICTIONARY_ORDERED; ARROW_FLAG_NULLABLE; ARROW_FLAG_MAP_KEYS_SORTED].

(** [NULL] of <stdlib.h>, for data and function pointers alike. *)
Definition NULL : Z := 0.

(** ** The header: struct declarations *)

Inductive struct_tag := TagArrowSchema | TagArrowArray.

(** The C types that occur in the two declarations. *)
Inductive ctype :=
| int64_t                                  (* int64_t *)
| const_char_ptr                           (* const char* *)
| const_void_ptr_ptr                       (* const void** *)
| struct_ptr (s : struct_tag)              (* struct S* *)
| struct_ptr_ptr (s : struct_tag)          (* struct S** *)
| release_fn_ptr (s : struct_tag)          (* void ( * )(struct S* ) *)
| void_ptr.                                (* void* *)

Definition is_pointer (t : ctype) : bool :=
  match t with int64_t => false | _ => true end.

Module ArrowSchema.

Record t := mk {
  format : Z;        (* const char* *)
  name : Z;          (* const char* *)
  metadata : Z;      (* const char* *)
  flags : Z;         (* int64_t *)
  n_children : Z;    (* int64_t *)
  children : Z;      (* struct ArrowSchema** *)
  dictionary : Z;    (* struct ArrowSchema* *)
  release : Z;       (* void ( * )(struct ArrowSchema* ) *)
  private_data : Z   (* void* *)
}.

(** The member declarations of [struct ArrowSchema], top to bottom. *)
Definition decl : list (string * ctype) :=
  [ ("format", const_char_ptr);
    ("name", const_char_ptr);
    ("metadata", const_char_ptr);
    ("flags", int64_t);
    ("n_children", int64_t);
    ("children", struct_ptr_ptr TagArrowSchema);
    ("dictionary", struct_ptr TagArrowSchema);
    ("release", release_fn_ptr TagArrowSchema);
    ("private_data", void_ptr) ]%string.

(** [s->release = v], every other member kept. *)
Definition set_release (s : t) (v : Z) : t :=
  {| format := format s; name := name s; metadata := metadata s;
     flags := flags s; n_children := n_children s; children := children s;
     dictionary := dictionary s; release := v;
     private_data := private_data s |}.

End ArrowSchema.

Module ArrowArray.

Record t := mk {
  length : Z;        (* int64_t *)
  null_count : Z;    (* int64_t *)
  offset : Z;        (* int64_t *)
  n_buffers : Z;     (* int64_t *)
  n_children : Z;    (* int64_t *)
  buffers : Z;       (* const void** *)
  children : Z;      (* struct ArrowArray** *)
  dictionary : Z;    (* struct ArrowArray* *)
  release : Z;       (* void ( * )(struct ArrowArray* ) *)
  private_data : Z   (* void* *)
}.

(** The member declarations of [struct ArrowArray], top to bottom. *)
Definition decl : list (string * ctype) :=
  [ ("length", int64_t);
    ("null_count", int64_t);
    ("offset", int64_t);
    ("n_buffers", int64_t);
    ("n_children", int64_t);
    ("buffers", const_void_ptr_ptr);
    ("children", struct_ptr_ptr TagArrowArray);
    ("dictionary", struct_ptr TagArrowArray);
    ("release", release_fn_ptr TagArrowArray);
    ("private_data", void_ptr) ]%string.

(** [a->release = v], every other member kept. *)
Definition set_release (a : t) (v : Z) : t :=
  {| length := length a; null_count := null_count a; offset := offset a;
     n_buffers := n_buffers a; n_children := n_children a;
     buffers := buffers a; children := children a;
     dictionary := dictionary a; release := v;
     private_data := private_data a |}.

End ArrowArray.

(** ** Memory, traces and the monad of C statements *)

(** What an address holds: one descriptor of either struct type. *)
Inductive object :=
| OSchema (s : ArrowSchema.t)
| OArray (a : ArrowArray.t).

(** Everything a statement can do to the world outside its own locals. *)
Inductive event :=
| EvLoad (p : Z) (fld : string)            (* read of p->fld *)
| EvStore (p : Z) (fld : string) (v : Z)   (* p->fld = v *)
| EvCall (fn : Z) (arg : Z)                (* fn(arg) through a function pointer *)
| EvFree (p : Z).                          (* free(p) *)

Inductive outcome (A : Type) : Type :=
| Returns (a : A) (h : gmap Z object) (tr : list event)
| Undefined.
Arguments Returns {A} a h tr.
Arguments Undefined {A}.

Definition C (A : Type) : Type := gmap Z object -> outcome A.

Definition ret {A : Type} (a : A) : C A := fun h => Returns a h [].

Definition bind {A B : Type} (c : C A) (k : A -> C B) : C B := fun h =>
  match c h with
  | Returns a h1 tr1 =>
      match k a h1 with
      | Returns b h2 tr2 => Returns b h2 (tr1 ++ tr2)
      | Undefined => Undefined
      end
  | Undefined => Undefined
  end.

Declare Scope c_scope.
Delimit Scope c_scope with C.
Notation "c1 ;; c2" := (bind c1 (fun _ => c2))
  (at level 100, c2 at level 200, right associativity) : c_scope.

(** [if (p)] on a pointer: true unless [p] is the null pointer. *)
Definition nonnull (p : Z) : bool := negb (p =? NULL).

(** [p->release = v] through a [struct ArrowSchema*]: defined only when [p]
    points to a schema descriptor. *)
Definition store_schema_release (p v : Z) : C unit := fun h =>
  match h !! p with
  | Some (OSchema s) =>
      Returns tt (<[p := OSchema (ArrowSchema.set_release s v)]> h)
              [EvStore p "release" v]
  | _ => Undefined
  end.

(** [p->release = v] through a [struct ArrowArray*]. *)
Definition store_array_release (p v : Z) : C unit := fun h =>
  match h !! p with
  | Some (OArray a) =>
      Returns tt (<[p := OArray (ArrowArray.set_release a v)]> h)
              [EvStore p "release" v]
  | _ => Undefined
  end.

(** ** ArrowCData.c *)

Definition ArrowSwiftClearReleaseSchema (arrowSchema : Z) : C unit :=
  if nonnull arrowSchema
  then store_schema_release arrowSchema NULL
  else ret tt.

Definition ArrowSwiftClearReleaseArray (arrowArray : Z) : C unit :=
  if nonnull arrowArray
  then store_array_release arrowArray NULL
  else ret tt.

(** The memory a run ends in, when it returns. *)
Definition final_heap {A : Type} (o : outcome A) : option (gmap Z object) :=
  match o with Returns _ h _ => Some h | Undefined => None end.

(** ** Reading the descriptors *)

Definition release_of (o : object) : Z :=
  match o with
  | OSchema s => ArrowSchema.release s
  | OArray a => ArrowArray.release a
  end.

(** A descriptor in the non-owning state: its [release] is the null pointer. *)
Definition non_owning (o : object) : Prop := release_of o = NULL.

(** Every member of a schema descriptor but [release] is the same in both. *)
Definition schema_rest_equal (s s' : ArrowSchema.t) : Prop :=
  ArrowSchema.format s' = ArrowSchema.format s /\
  ArrowSchema.name s' = ArrowSchema.name s /\
  ArrowSchema.metadata s' = ArrowSchema.metadata s /\
  ArrowSchema.flags s' = ArrowSchema.flags s /\
  ArrowSchema.n_children s' = ArrowSchema.n_children s /\
  ArrowSchema.children s' = ArrowSchema.children s /\
  ArrowSchema.dictionary s' = ArrowSchema.dictionary s /\
  ArrowSchema.private_data s' = ArrowSchema.private_data s.

(** Every member of an array descriptor but [release] is the same in both. *)
Definition array_rest_equal (a a' : ArrowArray.t) : Prop :=
  ArrowArray.length a' = ArrowArray.length a /\
  ArrowArray.null_count a' = ArrowArray.null_count a /\
  ArrowArray.offset a' = ArrowArray.offset a /\
  ArrowArray.n_buffers a' = ArrowArray.n_buffers a /\
  ArrowArray.n_children a' = ArrowArray.n_children a /\
  ArrowArray.buffers a' = ArrowArray.buffers a /\
  ArrowArray.children a' = ArrowArray.children a /\
  ArrowArray.dictionary a' = ArrowArray.dictionary a /\
  ArrowArray.private_data a' = ArrowArray.private_data a.

(** What a [struct ArrowSchema*] argument may be: null, or the address of a
    schema descriptor. *)
Definition valid_schema_ref (h : gmap Z object) (p : Z) : Prop :=
  p = NULL \/ exists s, h !! p = Some (OSchema s).

(** What a [struct ArrowArray*] argument may be. *)
Definition valid_array_ref (h : gmap Z object) (p : Z) : Prop :=
  p = NULL \/ exists a, h !! p = Some (OArray a).

Definition is_call (e : event) : bool :=
  match e with EvCall _ _ => true | _ => false end.

Definition is_free (e : event) : bool :=
  match e with EvFree _ => true | _ => false end.

(** Two runs of one operation on [p] end alike: both return, with the same
    descriptor at [p] and the same accesses, or both are undefined. *)
Definition agree_at (p : Z) (o1 o2 : outcome unit) : Prop :=
  match o1, o2 with
  | Returns _ h1 tr1, Returns _ h2 tr2 => h1 !! p = h2 !! p /\ tr1 = tr2
  | Undefined, Undefined => True
  | _, _ => False
  end.

(** A run that returns left every address but [p] as it was in [h]. *)
Definition touches_only (p : Z) (h : gmap Z object) (o : outcome unit) : Prop :=
  match o with
  | Returns _ h' _ => forall q, q ≠ p -> h' !! q = h !! q
  | Undefined => True
  end.

(** ** Flag words *)

(** [w | f] *)
Definition set_flag (w f : Z) : Z := Z.lor w f.

(** [(w & f) != 0] *)
Definition has_flag (w f : Z) : bool := negb (Z.land w f =? 0).

(** The flags word that holds exactly the chosen flags, built with [|]. *)
Definition pack_flags (dictionary_ordered nullable map_keys_sorted : bool) : Z :=
  set_flag
    (set_flag
       (if dictionary_ordered then ARROW_FLAG_DICTIONARY_ORDERED else 0)
       (if nullable then ARROW_FLAG_NULLABLE else 0))
    (if map_keys_sorted then ARROW_FLAG_MAP_KEYS_SORTED else 0).

(** ** Layout of the declarations *)

Section Layout.

(** [sizeof(void* )], the one size the declarations leave to the platform. *)
Variable ptr_size : Z.

Definition sizeof (t : ctype) : Z :=
  if is_pointer t then ptr_size else 8.

(** Scalars are aligned to their size. *)
Definition alignof (t : ctype) : Z := sizeof t.

Definition align_up (off a : Z) : Z := (off + a - 1) / a * a.

(** Offsets of the members, laid out in declaration order from [off]. *)
Fixpoint offsets_from (off : Z) (ms : list (string * ctype)) : list (string * Z) :=
  match ms with
  | [] => []
  | (n, t) :: ms' =>
      let o := align_up off (alignof t) in
      (n, o) :: offsets_from (o + sizeof t) ms'
  end.

Fixpoint end_from (off : Z) (ms : list (string * ctype)) : Z :=
  match ms with
  | [] => off
  | (_, t) :: ms' => end_from (align_up off (alignof t) + sizeof t) ms'
  end.

Definition struct_align (ms : list (string * ctype)) : Z :=
  foldr (fun m acc => Z.max (alignof (snd m)) acc) 1 ms.

Definition offsetof_all (ms : list (string * ctype)) : list (string * Z) :=
  offsets_from 0 ms.

Definition struct_size (ms : list (string * ctype)) : Z :=
  align_up (end_from 0 ms) (struct_align ms).

End Layout.

(** The member order of the published C Data Interface, as the specification
    of this repository words it: for the schema, format, name, metadata,
    flags, n_children, children, dictionary, then release and private_data. *)
Definition published_schema_members : list string :=
  ["format"; "name"; "metadata"; "flags"; "n_children"; "children";
   "dictionary"; "release"; "private_data"]%string.

(** For the array: length, null_count, offset, n_buffers, n_children, buffers,
    children, dictionary, then release and private_data. *)
Definition published_array_members : list string :=
  ["length"; "null_count"; "offset"; "n_buffers"; "n_children"; "buffers";
   "children"; "dictionary"; "release"; "private_data"]%string.

(** The members the specification calls lengths, counts and flags. *)
Definition integer_members : list string :=
  ["flags"; "n_children"; "length"; "null_count"; "offset"; "n_buffers"]%string.

(** Types of the members named in [names], in declaration order. *)
Definition types_of (names : list string) (ms : list (string * ctype)) : list ctype :=
  map snd (filter (fun m => bool_decide (fst m ∈ names)) ms).

(** ** The release protocol *)

Module ReleaseProtocol.

(** Modelled from the spec: the bodies of the [release] callbacks.  They are
    producer code, which [ArrowC] only declares a slot for
    ([void ( *release)(struct ArrowSchema* )] and its array twin); the model
    below follows section 4.1 of the specification step by step, over the
    owned-pointer trees of its design notes: a node exclusively owns its
    children sequence and its dictionary node. *)
#[local] Unset Elimination Schemes.
Inductive node :=
| Node (addr : Z) (release : Z) (children : list node) (dictionary : option node).
#[local] Set Elimination Schemes.

Definition addr (n : node) : Z := match n with Node a _ _ _ => a end.
Definition release (n : node) : Z := match n with Node _ r _ _ => r end.
Definition children (n : node) : list node := match n with Node _ _ cs _ => cs end.
Definition dictionary (n : node) : option node := match n with Node _ _ _ d => d end.

(** What a release does, one step at a time, each step naming the node it
    belongs to. *)
Inductive step :=
| Invoke (a : Z)                      (* a->release(a) is entered *)
| FreeStorage (a : Z) (what : string) (* storage that node a owns is freed *)
| ClearRelease (a : Z)                (* a->release = NULL *)
| Dealloc (a : Z).                    (* node a itself is deallocated *)

Definition step_addr (e : step) : Z :=
  match e with
  | Invoke a | FreeStorage a _ | ClearRelease a | Dealloc a => a
  end.

(** What a node frees of its own once children and dictionary are released:
    the container of child pointers, the strings, the private data. *)
Definition own_storage (a : Z) : list step :=
  [FreeStorage a "children"; FreeStorage a "metadata"; FreeStorage a "format";
   FreeStorage a "name"; FreeStorage a "private_data"].

(** Modelled from the spec: a conforming release.  Invoking the callback of
    a node whose [release] is null is misuse (no result); otherwise the node
    releases every child in order (each child its own children first), then
    the dictionary if present, frees what it owns, sets its own [release] to
    null and only then deallocates itself. *)
Fixpoint release_node (n : node) : option (list step) :=
  match n with
  | Node a r cs d =>
      if r =? NULL then None
      else
        match
          (fix release_all (l : list node) : option (list step) :=
             match l with
             | [] => Some []
             | c :: l' =>
                 match release_node c, release_all l' with
                 | Some t1, Some t2 => Some (t1 ++ t2)
                 | _, _ => None
                 end
             end) cs,
          match d with
          | Some dn => release_node dn
          | None => Some []
          end
        with
        | Some tc, Some td =>
            Some (Invoke a :: tc ++ td ++ own_storage a
                    ++ [ClearRelease a; Dealloc a])
        | _, _ => None
        end
  end.

(** Releasing a sequence of nodes, first to last. *)
Fixpoint release_all (l : list node) : option (list step) :=
  match l with
  | [] => Some []
  | c :: l' =>
      match release_node c, release_all l' with
      | Some t1, Some t2 => Some (t1 ++ t2)
      | _, _ => None
      end
  end.

Definition release_dictionary (d : option node) : option (list step) :=
  match d with
  | Some dn => release_node dn
  | None => Some []
  end.

(** Addresses of a node and of everything it owns, transitively. *)
Fixpoint addrs (n : node) : list Z :=
  match n with
  | Node a _ cs d =>
      a :: flat_map addrs cs
        ++ match d with Some dn => addrs dn | None => [] end
  end.

(** The ownership edges (owner, owned) below a node, transitively. *)
Fixpoint edges (n : node) : list (Z * Z) :=
  match n with
  | Node a _ cs d =>
      map (fun c => (a, addr c)) cs
        ++ flat_map edges cs
        ++ match d with
           | Some dn => (a, addr dn) :: edges dn
           | None => []
           end
  end.

(** A live node: its [release] is non-null, and so is that of everything it
    owns, transitively. *)
Fixpoint live (n : node) : bool :=
  match n with
  | Node _ r cs d =>
      nonnull r && forallb live cs
        && match d with Some dn => live dn | None => true end
  end.

#[global] Instance step_eq_dec : EqDecision step.
Proof. solve_decision. Defined.

(** How often [e] happens in a run. *)
Definition times (e : step) (tr : list step) : nat :=
  count_occ step_eq_dec tr e.

(** [e1] happens, and later [e2] does. *)
Definition before (e1 e2 : step) (tr : list step) : Prop :=
  exists l1 l2 l3, tr = l1 ++ e1 :: l2 ++ e2 :: l3.

(** The steps that happen once per node: entering the callback, clearing
    [release], deallocating the node. *)
Definition node_step (e : step) : bool :=
  match e with FreeStorage _ _ => false | _ => true end.

(** [c] is a child of the node, or its dictionary. *)
Definition owns (cs : list node) (d : option node) (c : node) : Prop :=
  c ∈ cs \/ d = Some c.

(** [t] is a contiguous part of the run [tr]. *)
Definition part (t tr : list step) : Prop :=
  exists l r, tr = l ++ t ++ r.

(** What one node adds around the releases of what it owns. *)
Definition root_trace (a : Z) (body : list step) : list step :=
  Invoke a :: body ++ own_storage a ++ [ClearRelease a; Dealloc a].

End ReleaseProtocol.

(** ** Sample data *)

(** A memory to try the adapter on: a struct schema at 4096 with a live
    release callback at 900, its two children at 4352 and 4608 listed in the
    pointer array at 8192, and an array descriptor at 12288. *)
Definition demo_schema : ArrowSchema.t :=
  ArrowSchema.mk 100 200 0 ARROW_FLAG_NULLABLE 2 8192 0 900 7.

Definition demo_child1 : ArrowSchema.t :=
  ArrowSchema.mk 110 210 0 ARROW_FLAG_NULLABLE 0 0 0 901 0.

Definition demo_child2 : ArrowSchema.t :=
  ArrowSchema.mk 120 220 0 0 0 0 0 902 0.

Definition demo_array : ArrowArray.t :=
  ArrowArray.mk 5 (-1) 0 2 0 16384 0 0 950 9.

Definition demo_heap : gmap Z object :=
  <[4096 := OSchema demo_schema]>
    (<[4352 := OSchema demo_child1]>
       (<[4608 := OSchema demo_child2]>
          (<[12288 := OArray demo_array]> ∅))).

(** Another memory with the same schema at 4096 and nothing else in common. *)
Definition demo_heap_other : gmap Z object :=
  <[4096 := OSchema demo_schema]>
    (<[4352 := OArray demo_array]> ∅).

(** A struct schema at 4096 that owns two children, the second of them
    dictionary-encoded with a nested child of its own; every node is live. *)
Definition demo_tree : ReleaseProtocol.node :=
  ReleaseProtocol.Node 4096 900
    [ ReleaseProtocol.Node 4352 901 [] None;
      ReleaseProtocol.Node 4608 902
        [ReleaseProtocol.Node 4864 903 [] None]
        (Some (ReleaseProtocol.Node 5120 904 [] None)) ]
    None.

(** The same child listed twice: ownership that is not exclusive. *)
Definition demo_shared : ReleaseProtocol.node :=
  ReleaseProtocol.Node 4096 900
    [ ReleaseProtocol.Node 4352 901 [] None;
      ReleaseProtocol.Node 4352 901 [] None ]
    None.

(** A live node that lists a child whose [release] is already null. *)
Definition demo_moved_child : ReleaseProtocol.node :=
  ReleaseProtocol.Node 4096 900 [ReleaseProtocol.Node 4352 NULL [] None] None.

(** * Properties of the adapter *)

Section Adapter.

Implicit Types (h : gmap Z object) (p q : Z).

Lemma nonnull_true p : p ≠ NULL -> nonnull p = true.
Proof.
  intros Hp. unfold nonnull. apply negb_true_iff, Z.eqb_neq. exact Hp.
Qed.

Lemma nonnull_false p : nonnull p = false -> p = NULL.
Proof.
  unfold nonnull. intros Hp. apply negb_false_iff in Hp.
  apply Z.eqb_eq. exact Hp.
Qed.

Lemma clear_schema_null h :
  ArrowSwiftClearReleaseSchema NULL h = Returns tt h [].
Proof. reflexivity. Qed.

Lemma clear_array_null h :
  ArrowSwiftClearReleaseArray NULL h = Returns tt h [].
Proof. reflexivity. Qed.

Lemma clear_schema_at h p s :
  p ≠ NULL -> h !! p = Some (OSchema s) ->
  ArrowSwiftClearReleaseSchema p h
  = Returns tt (<[p := OSchema (ArrowSchema.set_release s NULL)]> h)
            [EvStore p "release" NULL].
Proof.
  intros Hp Hs. unfold ArrowSwiftClearReleaseSchema.
  rewrite (nonnull_true p Hp). unfold store_schema_release.
  rewrite Hs. reflexivity.
Qed.

Lemma clear_array_at h p a :
  p ≠ NULL -> h !! p = Some (OArray a) ->
  ArrowSwiftClearReleaseArray p h
  = Returns tt (<[p := OArray (ArrowArray.set_release a NULL)]> h)
            [EvStore p "release" NULL].
Proof.
  intros Hp Ha. unfold ArrowSwiftClearReleaseArray.
  rewrite (nonnull_true p Hp). unfold store_array_release.
  rewrite Ha. reflexivity.
Qed.

(** Whatever a clear operation returns on is covered by the two cases
    above: the null reference, or the address of a descriptor. *)
Lemma clear_schema_returns h p h' tr :
  ArrowSwiftClearReleaseSchema p h = Returns tt h' tr ->
  (p = NULL /\ h' = h /\ tr = [])
  \/ (p ≠ NULL /\ exists s, h !! p = Some (OSchema s)
      /\ h' = <[p := OSchema (ArrowSchema.set_release s NULL)]> h
      /\ tr = [EvStore p "release" NULL]).
Proof.
  unfold ArrowSwiftClearReleaseSchema.
  destruct (nonnull p) eqn:Hn.
  - unfold store_schema_release.
    destruct (h !! p) as [[s|a]|] eqn:Hl; try discriminate.
    intros [= <- <-]. right. split.
    + intros ->. discriminate Hn.
    + exists s. auto.
  - intros [= <- <-]. left. auto using nonnull_false.
Qed.

Lemma clear_array_returns h p h' tr :
  ArrowSwiftClearReleaseArray p h = Returns tt h' tr ->
  (p = NULL /\ h' = h /\ tr = [])
  \/ (p ≠ NULL /\ exists a, h !! p = Some (OArray a)
      /\ h' = <[p := OArray (ArrowArray.set_release a NULL)]> h
      /\ tr = [EvStore p "release" NULL]).
Proof.
  unfold ArrowSwiftClearReleaseArray.
  destruct (nonnull p) eqn:Hn.
  - unfold store_array_release.
    destruct (h !! p) as [[s|a]|] eqn:Hl; try discriminate.
    intros [= <- <-]. right. split.
    + intros ->. discriminate Hn.
    + exists a. auto.
  - intros [= <- <-]. left. auto using nonnull_false.
Qed.

(** Overwriting a descriptor that is there keeps the set of allocated
    addresses. *)
Lemma dom_overwrite h p (o o' : object) :
  h !! p = Some o -> dom (<[p := o']> h) = dom h.
Proof.
  intros Hl. rewrite dom_insert_L.
  assert (Hin : p ∈ dom h) by (apply elem_of_dom; eauto).
  apply set_eq. intros x. rewrite elem_of_union, elem_of_singleton.
  split; [intros [->|Hx]; assumption | auto].
Qed.

Lemma schema_set_release_rest s v :
  schema_rest_equal s (ArrowSchema.set_release s v).
Proof. repeat split. Qed.

Lemma array_set_release_rest a v :
  array_rest_equal a (ArrowArray.set_release a v).
Proof. repeat split. Qed.

Lemma schema_set_release_twice s v :
  ArrowSchema.set_release (ArrowSchema.set_release s v) v
  = ArrowSchema.set_release s v.
Proof. reflexivity. Qed.

Lemma array_set_release_twice a v :
  ArrowArray.set_release (ArrowArray.set_release a v) v
  = ArrowArray.set_release a v.
Proof. reflexivity. Qed.

(** The schema operation on the sample memory: one store, and the descriptor
    at 4096 differs from [demo_schema] in [release] only. *)
Example clear_demo_schema :
  ArrowSwiftClearReleaseSchema 4096 demo_heap
  = Returns tt
      (<[4096 := OSchema (ArrowSchema.mk 100 200 0 ARROW_FLAG_NULLABLE
                            2 8192 0 NULL 7)]> demo_heap)
      [EvStore 4096 "release" NULL].
Proof. reflexivity. Qed.

(** Through a non-null pointer that does not point to a descriptor of the
    operation's struct type the store has no defined behaviour. *)
Example clear_demo_wrong_type :
  ArrowSwiftClearReleaseSchema 12288 demo_heap = Undefined
  /\ ArrowSwiftClearReleaseArray 4096 demo_heap = Undefined
  /\ ArrowSwiftClearReleaseSchema 24 demo_heap = Undefined.
Proof. repeat split. Qed.

End Adapter.

(** C1: for a non-null reference [p] to a schema (array) descriptor, the
    respective clear operation returns after exactly one access, the store of
    the null pointer to [p->release]; afterwards the descriptor at [p] has a
    null [release] and every other member as before, every other address of
    the memory (children and dictionary among them) holds what it held, and
    the set of allocated addresses is unchanged. *)
Theorem clear_release_only_sets_release
  (h : gmap Z object) (p : Z) (o : object)
  (Hnonnull : p ≠ NULL) (Hat : h !! p = Some o) :
  match o with
  | OSchema s =>
      exists h' s',
        ArrowSwiftClearReleaseSchema p h
        = Returns tt h' [EvStore p "release" NULL]
        /\ h' !! p = Some (OSchema s')
        /\ ArrowSchema.release s' = NULL
        /\ schema_rest_equal s s'
        /\ (forall q, q ≠ p -> h' !! q = h !! q)
        /\ dom h' = dom h
  | OArray a =>
      exists h' a',
        ArrowSwiftClearReleaseArray p h
        = Returns tt h' [EvStore p "release" NULL]
        /\ h' !! p = Some (OArray a')
        /\ ArrowArray.release a' = NULL
        /\ array_rest_equal a a'
        /\ (forall q, q ≠ p -> h' !! q = h !! q)
        /\ dom h' = dom h
  end.
Proof.
  destruct o as [s|a].
  - exists (<[p := OSchema (ArrowSchema.set_release s NULL)]> h),
      (ArrowSchema.set_release s NULL).
    split; [apply clear_schema_at; assumption|].
    split; [apply lookup_insert_eq|].
    split; [reflexivity|].
    split; [apply schema_set_release_rest|].
    split.
    + intros q Hq. apply lookup_insert_ne. congruence.
    + eapply dom_overwrite; eassumption.
  - exists (<[p := OArray (ArrowArray.set_release a NULL)]> h),
      (ArrowArray.set_release a NULL).
    split; [apply clear_array_at; assumption|].
    split; [apply lookup_insert_eq|].
    split; [reflexivity|].
    split; [apply array_set_release_rest|].
    split.
    + intros q Hq. apply lookup_insert_ne. congruence.
    + eapply dom_overwrite; eassumption.
Qed.

Lemma clear_release_only_sets_release_witness :
  (exists h' s',
      ArrowSwiftClearReleaseSchema 4096 demo_heap
      = Returns tt h' [EvStore 4096 "release" NULL]
      /\ h' !! 4096 = Some (OSchema s')
      /\ ArrowSchema.release s' = NULL
      /\ schema_rest_equal demo_schema s'
      /\ (forall q, q ≠ 4096 -> h' !! q = demo_heap !! q)
      /\ dom h' = dom demo_heap)
  /\
  (exists h' a',
      ArrowSwiftClearReleaseArray 12288 demo_heap
      = Returns tt h' [EvStore 12288 "release" NULL]
      /\ h' !! 12288 = Some (OArray a')
      /\ ArrowArray.release a' = NULL
      /\ array_rest_equal demo_array a'
      /\ (forall q, q ≠ 12288 -> h' !! q = demo_heap !! q)
      /\ dom h' = dom demo_heap).
Proof.
  split.
  - apply (clear_release_only_sets_release demo_heap 4096 (OSchema demo_schema)).
    + discriminate.
    + reflexivity.
  - apply (clear_release_only_sets_release demo_heap 12288 (OArray demo_array)).
    + discriminate.
    + reflexivity.
Defined.

(** C2: on the null reference either clear operation returns with an empty
    trace (no load, no store, hence no dereference) and the memory it was
    given. *)
Theorem clear_release_null_is_noop (h : gmap Z object) :
  ArrowSwiftClearReleaseSchema NULL h = Returns tt h []
  /\ ArrowSwiftClearReleaseArray NULL h = Returns tt h [].
Proof.
  split; [apply clear_schema_null | apply clear_array_null].
Qed.

(** C6: each of the two operations returns normally on every argument its
    pointer type admits, the null reference or the address of a descriptor of
    its struct type, and does so after at most one access to memory: nothing
    in it loops, calls out or waits. *)
Theorem clear_release_returns (h : gmap Z object) (p : Z) :
  (valid_schema_ref h p ->
   exists h' tr,
     ArrowSwiftClearReleaseSchema p h = Returns tt h' tr
     /\ (length tr <= 1)%nat)
  /\
  (valid_array_ref h p ->
   exists h' tr,
     ArrowSwiftClearReleaseArray p h = Returns tt h' tr
     /\ (length tr <= 1)%nat).
Proof.
  split.
  - intros [-> | [s Hs]].
    + exists h, []. split; [apply clear_schema_null | simpl; lia].
    + destruct (nonnull p) eqn:Hn.
      * eexists _, _. split.
        -- apply clear_schema_at; [|eassumption].
           intros ->. discriminate Hn.
        -- simpl. lia.
      * apply nonnull_false in Hn. subst p.
        exists h, []. split; [apply clear_schema_null | simpl; lia].
  - intros [-> | [a Ha]].
    + exists h, []. split; [apply clear_array_null | simpl; lia].
    + destruct (nonnull p) eqn:Hn.
      * eexists _, _. split.
        -- apply clear_array_at; [|eassumption].
           intros ->. discriminate Hn.
        -- simpl. lia.
      * apply nonnull_false in Hn. subst p.
        exists h, []. split; [apply clear_array_null | simpl; lia].
Qed.

Lemma clear_release_returns_witness :
  valid_schema_ref demo_heap 4096
  /\ valid_array_ref demo_heap 12288
  /\ valid_schema_ref demo_heap NULL
  /\ (exists h' tr,
        ArrowSwiftClearReleaseSchema 4096 demo_heap = Returns tt h' tr
        /\ (length tr <= 1)%nat)
  /\ (exists h' tr,
        ArrowSwiftClearReleaseArray 12288 demo_heap = Returns tt h' tr
        /\ (length tr <= 1)%nat)
  /\ (exists h' tr,
        ArrowSwiftClearReleaseSchema NULL demo_heap = Returns tt h' tr
        /\ (length tr <= 1)%nat).
Proof.
  assert (Hs : valid_schema_ref demo_heap 4096)
    by (right; exists demo_schema; reflexivity).
  assert (Ha : valid_array_ref demo_heap 12288)
    by (right; exists demo_array; reflexivity).
  assert (Hn : valid_schema_ref demo_heap NULL) by (left; reflexivity).
  split; [exact Hs|]. split; [exact Ha|]. split; [exact Hn|].
  split; [exact (proj1 (clear_release_returns demo_heap 4096) Hs)|].
  split; [exact (proj2 (clear_release_returns demo_heap 12288) Ha)|].
  exact (proj1 (clear_release_returns demo_heap NULL) Hn).
Defined.

(** C7: whenever a clear operation returns, on the null reference or on a
    descriptor whose [release] held any value at all, its trace has no call
    through a function pointer and no [free], the set of allocated addresses
    is the one before the call, every address but [p] holds what it held, and
    for a non-null [p] the descriptor at [p] is in the non-owning state. *)
Theorem clear_release_never_releases
  (h h' : gmap Z object) (p : Z) (tr : list event)
  (Hrun : ArrowSwiftClearReleaseSchema p h = Returns tt h' tr
          \/ ArrowSwiftClearReleaseArray p h = Returns tt h' tr) :
  Forall (fun e => is_call e = false /\ is_free e = false) tr
  /\ dom h' = dom h
  /\ (forall q, q ≠ p -> h' !! q = h !! q)
  /\ (p ≠ NULL -> exists o, h' !! p = Some o /\ non_owning o).
Proof.
  destruct Hrun as [Hrun | Hrun].
  - apply clear_schema_returns in Hrun
      as [(-> & -> & ->) | (Hp & s & Hs & -> & ->)].
    + repeat split; auto. intros Hp. contradiction Hp. reflexivity.
    + split; [repeat constructor|].
      split; [eapply dom_overwrite; eassumption|].
      split.
      * intros q Hq. apply lookup_insert_ne. congruence.
      * intros _. eexists. split; [apply lookup_insert_eq | reflexivity].
  - apply clear_array_returns in Hrun
      as [(-> & -> & ->) | (Hp & a & Ha & -> & ->)].
    + repeat split; auto. intros Hp. contradiction Hp. reflexivity.
    + split; [repeat constructor|].
      split; [eapply dom_overwrite; eassumption|].
      split.
      * intros q Hq. apply lookup_insert_ne. congruence.
      * intros _. eexists. split; [apply lookup_insert_eq | reflexivity].
Qed.

Lemma clear_release_never_releases_witness :
  let h' := <[4096 := OSchema (ArrowSchema.set_release demo_schema NULL)]> demo_heap in
  let tr := [EvStore 4096 "release" NULL] in
  ArrowSwiftClearReleaseSchema 4096 demo_heap = Returns tt h' tr
  /\ Forall (fun e => is_call e = false /\ is_free e = false) tr
  /\ dom h' = dom demo_heap
  /\ (forall q, q ≠ 4096 -> h' !! q = demo_heap !! q)
  /\ (4096 ≠ NULL -> exists o, h' !! 4096 = Some o /\ non_owning o).
Proof.
  intros h' tr.
  assert (Hrun : ArrowSwiftClearReleaseSchema 4096 demo_heap = Returns tt h' tr)
    by reflexivity.
  split; [exact Hrun|].
  exact (clear_release_never_releases demo_heap h' 4096 tr (or_introl Hrun)).
Defined.

(** C8: calling a clear operation twice in a row on the same reference ends in
    the same memory as calling it once (and is undefined exactly when one
    call is), for every reference and every memory. *)
Theorem clear_release_idempotent (h : gmap Z object) (p : Z) :
  final_heap ((ArrowSwiftClearReleaseSchema p ;;
               ArrowSwiftClearReleaseSchema p)%C h)
  = final_heap (ArrowSwiftClearReleaseSchema p h)
  /\
  final_heap ((ArrowSwiftClearReleaseArray p ;;
               ArrowSwiftClearReleaseArray p)%C h)
  = final_heap (ArrowSwiftClearReleaseArray p h).
Proof.
  split.
  - unfold bind.
    destruct (ArrowSwiftClearReleaseSchema p h) as [[] h1 tr1|] eqn:Hrun;
      [|reflexivity].
    apply clear_schema_returns in Hrun
      as [(-> & -> & ->) | (Hp & s & Hs & -> & ->)].
    + rewrite clear_schema_null. reflexivity.
    + rewrite (clear_schema_at _ p (ArrowSchema.set_release s NULL) Hp)
        by apply lookup_insert_eq.
      simpl. rewrite insert_insert_eq, schema_set_release_twice. reflexivity.
  - unfold bind.
    destruct (ArrowSwiftClearReleaseArray p h) as [[] h1 tr1|] eqn:Hrun;
      [|reflexivity].
    apply clear_array_returns in Hrun
      as [(-> & -> & ->) | (Hp & a & Ha & -> & ->)].
    + rewrite clear_array_null. reflexivity.
    + rewrite (clear_array_at _ p (ArrowArray.set_release a NULL) Hp)
        by apply lookup_insert_eq.
      simpl. rewrite insert_insert_eq, array_set_release_twice. reflexivity.
Qed.

(** C10: the outcome of a clear operation is a function of the reference and
    of the one descriptor it points to.  Two runs on memories that agree at
    [p], whatever else they hold, both return or both are undefined, and when
    they return they leave the same descriptor at [p] after the same
    accesses; each leaves every other address of its own memory as it was. *)
Theorem clear_release_depends_on_descriptor_only
  (h1 h2 : gmap Z object) (p : Z) (Hsame : h1 !! p = h2 !! p) :
  (agree_at p (ArrowSwiftClearReleaseSchema p h1)
              (ArrowSwiftClearReleaseSchema p h2)
   /\ touches_only p h1 (ArrowSwiftClearReleaseSchema p h1)
   /\ touches_only p h2 (ArrowSwiftClearReleaseSchema p h2))
  /\
  (agree_at p (ArrowSwiftClearReleaseArray p h1)
              (ArrowSwiftClearReleaseArray p h2)
   /\ touches_only p h1 (ArrowSwiftClearReleaseArray p h1)
   /\ touches_only p h2 (ArrowSwiftClearReleaseArray p h2)).
Proof.
  split.
  - unfold ArrowSwiftClearReleaseSchema.
    destruct (nonnull p); [|simpl; auto].
    unfold store_schema_release. rewrite <- Hsame.
    destruct (h1 !! p) as [[s|a]|]; simpl; auto.
    split; [|split].
    + rewrite !lookup_insert_eq. auto.
    + intros q Hq. apply lookup_insert_ne. congruence.
    + intros q Hq. apply lookup_insert_ne. congruence.
  - unfold ArrowSwiftClearReleaseArray.
    destruct (nonnull p); [|simpl; auto].
    unfold store_array_release. rewrite <- Hsame.
    destruct (h1 !! p) as [[s|a]|]; simpl; auto.
    split; [|split].
    + rewrite !lookup_insert_eq. auto.
    + intros q Hq. apply lookup_insert_ne. congruence.
    + intros q Hq. apply lookup_insert_ne. congruence.
Qed.

Lemma clear_release_depends_on_descriptor_only_witness :
  demo_heap !! 4096 = demo_heap_other !! 4096
  /\ demo_heap !! 4352 ≠ demo_heap_other !! 4352
  /\ (agree_at 4096 (ArrowSwiftClearReleaseSchema 4096 demo_heap)
                    (ArrowSwiftClearReleaseSchema 4096 demo_heap_other)
      /\ touches_only 4096 demo_heap
           (ArrowSwiftClearReleaseSchema 4096 demo_heap)
      /\ touches_only 4096 demo_heap_other
           (ArrowSwiftClearReleaseSchema 4096 demo_heap_other)).
Proof.
  split; [reflexivity|]. split; [discriminate|].
  exact (proj1 (clear_release_depends_on_descriptor_only
                  demo_heap demo_heap_other 4096 eq_refl)).
Defined.

(** * Properties of the header *)

Section Flags.

Variables f g : Z.
Hypothesis Hdisjoint : Z.land f g = 0.

(** Setting [f] does not show through a mask [g] it shares no bit with. *)
Lemma has_flag_set_other (w : Z) : has_flag (set_flag w f) g = has_flag w g.
Proof.
  unfold has_flag, set_flag.
  rewrite Z.land_lor_distr_l, Hdisjoint, Z.lor_0_r. reflexivity.
Qed.

(** Setting a non-empty mask shows through that mask. *)
Lemma has_flag_set_same (w : Z) : f ≠ 0 -> has_flag (set_flag w f) f = true.
Proof.
  intros Hf. unfold has_flag, set_flag.
  apply negb_true_iff, Z.eqb_neq. intros Hz.
  apply Hf. apply Z.bits_inj'. intros i Hi.
  rewrite Z.bits_0.
  assert (Hbit : Z.testbit (Z.land (Z.lor w f) f) i = false)
    by (rewrite Hz; apply Z.bits_0).
  rewrite Z.land_spec, Z.lor_spec in Hbit.
  destruct (Z.testbit f i); [|reflexivity].
  rewrite orb_true_r in Hbit. discriminate Hbit.
Qed.

End Flags.

(** C4: the header defines exactly three flags, with the values 1, 2 and 4;
    dictionary-ordered has bit 0 set and no other, nullable bit 1 and no
    other, map-keys-sorted bit 2 and no other. *)
Theorem arrow_flag_bit_positions :
  arrow_flags = [1; 2; 4]
  /\ ARROW_FLAG_DICTIONARY_ORDERED = Z.shiftl 1 0
  /\ ARROW_FLAG_NULLABLE = Z.shiftl 1 1
  /\ ARROW_FLAG_MAP_KEYS_SORTED = Z.shiftl 1 2
  /\ (forall i, Z.testbit ARROW_FLAG_DICTIONARY_ORDERED i = (0 =? i))
  /\ (forall i, Z.testbit ARROW_FLAG_NULLABLE i = (1 =? i))
  /\ (forall i, Z.testbit ARROW_FLAG_MAP_KEYS_SORTED i = (2 =? i)).
Proof.
  split; [reflexivity|]. split; [reflexivity|].
  split; [reflexivity|]. split; [reflexivity|].
  split; [|split]; intros i.
  - change ARROW_FLAG_DICTIONARY_ORDERED with (2 ^ 0).
    apply Z.pow2_bits_eqb. lia.
  - change ARROW_FLAG_NULLABLE with (2 ^ 1).
    apply Z.pow2_bits_eqb. lia.
  - change ARROW_FLAG_MAP_KEYS_SORTED with (2 ^ 2).
    apply Z.pow2_bits_eqb. lia.
Qed.

(** C9: the three constants are distinct powers of two, the bitwise AND of any
    two of them is 0, a flags word built with bitwise OR from any choice of
    the three gives each choice back under bitwise AND, and setting one flag
    in any word leaves what the other two masks read. *)
Theorem arrow_flags_independent (w : Z) (d n m : bool) :
  NoDup arrow_flags
  /\ (ARROW_FLAG_DICTIONARY_ORDERED = 2 ^ 0
      /\ ARROW_FLAG_NULLABLE = 2 ^ 1
      /\ ARROW_FLAG_MAP_KEYS_SORTED = 2 ^ 2)
  /\ (Z.land ARROW_FLAG_DICTIONARY_ORDERED ARROW_FLAG_NULLABLE = 0
      /\ Z.land ARROW_FLAG_DICTIONARY_ORDERED ARROW_FLAG_MAP_KEYS_SORTED = 0
      /\ Z.land ARROW_FLAG_NULLABLE ARROW_FLAG_MAP_KEYS_SORTED = 0)
  /\ (has_flag (pack_flags d n m) ARROW_FLAG_DICTIONARY_ORDERED = d
      /\ has_flag (pack_flags d n m) ARROW_FLAG_NULLABLE = n
      /\ has_flag (pack_flags d n m) ARROW_FLAG_MAP_KEYS_SORTED = m)
  /\ (has_flag (set_flag w ARROW_FLAG_DICTIONARY_ORDERED)
               ARROW_FLAG_DICTIONARY_ORDERED = true
      /\ has_flag (set_flag w ARROW_FLAG_DICTIONARY_ORDERED)
                  ARROW_FLAG_NULLABLE = has_flag w ARROW_FLAG_NULLABLE
      /\ has_flag (set_flag w ARROW_FLAG_DICTIONARY_ORDERED)
                  ARROW_FLAG_MAP_KEYS_SORTED
         = has_flag w ARROW_FLAG_MAP_KEYS_SORTED)
  /\ (has_flag (set_flag w ARROW_FLAG_NULLABLE) ARROW_FLAG_NULLABLE = true
      /\ has_flag (set_flag w ARROW_FLAG_NULLABLE)
                  ARROW_FLAG_DICTIONARY_ORDERED
         = has_flag w ARROW_FLAG_DICTIONARY_ORDERED
      /\ has_flag (set_flag w ARROW_FLAG_NULLABLE)
                  ARROW_FLAG_MAP_KEYS_SORTED
         = has_flag w ARROW_FLAG_MAP_KEYS_SORTED)
  /\ (has_flag (set_flag w ARROW_FLAG_MAP_KEYS_SORTED)
               ARROW_FLAG_MAP_KEYS_SORTED = true
      /\ has_flag (set_flag w ARROW_FLAG_MAP_KEYS_SORTED)
                  ARROW_FLAG_DICTIONARY_ORDERED
         = has_flag w ARROW_FLAG_DICTIONARY_ORDERED
      /\ has_flag (set_flag w ARROW_FLAG_MAP_KEYS_SORTED)
                  ARROW_FLAG_NULLABLE = has_flag w ARROW_FLAG_NULLABLE).
Proof.
  split.
  { unfold arrow_flags. compute_done. }
  split; [repeat split|]. split; [repeat split|].
  split; [destruct d, n, m; repeat split|].
  repeat split;
    first [ apply has_flag_set_same; discriminate
          | apply has_flag_set_other; reflexivity ].
Qed.

(** C5: the members of [struct ArrowSchema] and of [struct ArrowArray] are
    declared in the order of the published C Data Interface, [release] and
    [private_data] last; the members that are flags, counts or lengths are
    [int64_t] and every other member is a pointer; with 8-byte pointers each
    member sits 8 bytes after the one before it, without padding, and the
    structs take 72 and 80 bytes. *)
Theorem descriptor_declarations_match_interface :
  (map fst ArrowSchema.decl = published_schema_members
   /\ map fst ArrowArray.decl = published_array_members)
  /\ (drop 7 (map fst ArrowSchema.decl) = ["release"; "private_data"]%string
      /\ drop 8 (map fst ArrowArray.decl) = ["release"; "private_data"]%string)
  /\ (types_of integer_members ArrowSchema.decl = [int64_t; int64_t]
      /\ types_of integer_members ArrowArray.decl
         = [int64_t; int64_t; int64_t; int64_t; int64_t])
  /\ (Forall (fun m => is_pointer (snd m)
                       = negb (bool_decide (fst m ∈ integer_members)))
             (ArrowSchema.decl ++ ArrowArray.decl))
  /\ (offsetof_all 8 ArrowSchema.decl
      = [("format", 0); ("name", 8); ("metadata", 16); ("flags", 24);
         ("n_children", 32); ("children", 40); ("dictionary", 48);
         ("release", 56); ("private_data", 64)]%string
      /\ struct_size 8 ArrowSchema.decl = 72)
  /\ (offsetof_all 8 ArrowArray.decl
      = [("length", 0); ("null_count", 8); ("offset", 16); ("n_buffers", 24);
         ("n_children", 32); ("buffers", 40); ("children", 48);
         ("dictionary", 56); ("release", 64); ("private_data", 72)]%string
      /\ struct_size 8 ArrowArray.decl = 80).
Proof.
  split; [split; reflexivity|].
  split; [split; reflexivity|].
  split; [split; reflexivity|].
  split; [repeat constructor|].
  split; split; reflexivity.
Qed.

(** * Properties of the release protocol *)

Section ReleaseFacts.

Import ReleaseProtocol.

Implicit Types (n c : node) (cs : list node) (d : option node)
  (tr : list step) (e : step) (a : Z).

(** Induction over ownership trees: a property of all children and of the
    dictionary carries over to the node. *)
Lemma node_ind (P : node -> Prop) :
  (forall a r cs d,
      Forall P cs -> match d with Some dn => P dn | None => True end ->
      P (Node a r cs d)) ->
  forall n, P n.
Proof.
  intros Hnode. fix IH 1. intros [a r cs d]. apply Hnode.
  - induction cs as [|c cs IHcs]; constructor; [apply IH | exact IHcs].
  - destruct d as [dn|]; [apply IH | exact I].
Qed.

Lemma release_node_eq a r cs d :
  release_node (Node a r cs d)
  = if r =? NULL then None
    else match release_all cs, release_dictionary d with
         | Some tc, Some td =>
             Some (Invoke a :: tc ++ td ++ own_storage a
                     ++ [ClearRelease a; Dealloc a])
         | _, _ => None
         end.
Proof. reflexivity. Qed.

Lemma addrs_eq a r cs d :
  addrs (Node a r cs d)
  = a :: flat_map addrs cs ++ match d with Some dn => addrs dn | None => [] end.
Proof. reflexivity. Qed.

Lemma live_eq a r cs d :
  live (Node a r cs d)
  = nonnull r && forallb live cs
    && match d with Some dn => live dn | None => true end.
Proof. reflexivity. Qed.

(** A release that returns starts by entering the node's callback and ends by
    clearing [release] and then deallocating the node. *)
Lemma release_node_shape n tr :
  release_node n = Some tr ->
  exists mid,
    tr = Invoke (addr n) :: mid ++ [ClearRelease (addr n); Dealloc (addr n)].
Proof.
  destruct n as [a r cs d]. rewrite release_node_eq.
  destruct (r =? NULL); [discriminate|].
  destruct (release_all cs) as [tc|]; [|discriminate].
  destruct (release_dictionary d) as [td|]; [|discriminate].
  intros [= <-]. exists (tc ++ td ++ own_storage a). simpl.
  rewrite <- !app_assoc. reflexivity.
Qed.

(** ** Live trees release without misuse *)

Lemma release_all_live cs :
  Forall (fun c => live c = true -> exists tr, release_node c = Some tr) cs ->
  forallb live cs = true ->
  exists tr, release_all cs = Some tr.
Proof.
  induction 1 as [|c cs Hc _ IH]; simpl; intros Hl.
  - eauto.
  - apply andb_true_iff in Hl as [Hl1 Hl2].
    destruct (Hc Hl1) as [t1 ->]. destruct (IH Hl2) as [t2 ->]. eauto.
Qed.

Lemma release_node_live n :
  live n = true -> exists tr, release_node n = Some tr.
Proof.
  induction n as [a r cs d IHcs IHd] using node_ind.
  rewrite live_eq, release_node_eq. intros Hl.
  apply andb_true_iff in Hl as [Hl Hd].
  apply andb_true_iff in Hl as [Hr Hcs].
  unfold nonnull in Hr. apply negb_true_iff in Hr. rewrite Hr.
  destruct (release_all_live cs IHcs Hcs) as [tc ->].
  destruct d as [dn|]; simpl.
  - destruct (IHd Hd) as [td ->]. eauto.
  - eauto.
Qed.

(** ** Every step of a release belongs to a node of the tree *)

Lemma release_all_addrs cs :
  Forall (fun c => forall tr, release_node c = Some tr ->
                   forall e, e ∈ tr -> step_addr e ∈ addrs c) cs ->
  forall tr, release_all cs = Some tr ->
  forall e, e ∈ tr -> step_addr e ∈ flat_map addrs cs.
Proof.
  induction 1 as [|c cs Hc _ IH]; simpl; intros tr Htr e He.
  - injection Htr as <-. apply elem_of_nil in He. contradiction.
  - destruct (release_node c) as [t1|]; [|discriminate].
    destruct (release_all cs) as [t2|]; [|discriminate].
    injection Htr as <-. rewrite elem_of_app in He. rewrite elem_of_app.
    destruct He as [He|He]; [left|right]; eauto.
Qed.

Lemma release_node_addrs n :
  forall tr, release_node n = Some tr ->
  forall e, e ∈ tr -> step_addr e ∈ addrs n.
Proof.
  induction n as [a r cs d IHcs IHd] using node_ind.
  intros tr. rewrite release_node_eq, addrs_eq.
  destruct (r =? NULL); [discriminate|].
  destruct (release_all cs) as [tc|] eqn:Hcs; [|discriminate].
  destruct (release_dictionary d) as [td|] eqn:Hd; [|discriminate].
  intros Htr e He. injection Htr as <-.
  rewrite elem_of_cons, !elem_of_app in He. rewrite elem_of_cons, elem_of_app.
  destruct He as [->|[He|[He|He]]].
  - left. reflexivity.
  - right. left. eapply release_all_addrs; eauto.
  - right. right. destruct d as [dn|]; simpl in Hd.
    + eapply IHd; eauto.
    + injection Hd as <-. apply elem_of_nil in He. contradiction.
  - left. rewrite !elem_of_cons, elem_of_nil in He.
    destruct He as [->|[->|[->|[->|[->|[->|[->|[]]]]]]]]; reflexivity.
Qed.

Lemma release_dictionary_addrs d tr e :
  release_dictionary d = Some tr -> e ∈ tr ->
  step_addr e ∈ match d with Some dn => addrs dn | None => [] end.
Proof.
  destruct d as [dn|]; simpl.
  - intros Htr He. eapply release_node_addrs; eauto.
  - intros [= <-] He. apply elem_of_nil in He. contradiction.
Qed.

(** ** Order of steps *)

Lemma before_app_l e1 e2 tr r : before e1 e2 tr -> before e1 e2 (tr ++ r).
Proof.
  intros (l1 & l2 & l3 & ->). exists l1, l2, (l3 ++ r).
  rewrite <- !app_assoc. simpl. rewrite <- app_assoc. reflexivity.
Qed.

Lemma before_app_r e1 e2 l tr : before e1 e2 tr -> before e1 e2 (l ++ tr).
Proof.
  intros (l1 & l2 & l3 & ->). exists (l ++ l1), l2, l3.
  rewrite <- app_assoc. reflexivity.
Qed.

Lemma before_cons e1 e2 x tr : before e1 e2 tr -> before e1 e2 (x :: tr).
Proof. apply (before_app_r e1 e2 [x]). Qed.

Lemma before_across e1 e2 l r : e1 ∈ l -> e2 ∈ r -> before e1 e2 (l ++ r).
Proof.
  intros (l1 & l2 & ->)%list_elem_of_split (r1 & r2 & ->)%list_elem_of_split.
  exists l1, (l2 ++ r1), r2. rewrite <- !app_assoc. reflexivity.
Qed.

(** The release of each child is a contiguous part of the release of the
    sequence it belongs to. *)
Lemma before_head e1 e2 tr : e2 ∈ tr -> before e1 e2 (e1 :: tr).
Proof.
  intros (r1 & r2 & ->)%list_elem_of_split. exists [], r1, r2. reflexivity.
Qed.

Lemma before_part e1 e2 t tr : part t tr -> before e1 e2 t -> before e1 e2 tr.
Proof. intros (l & r & ->) H. apply before_app_r, before_app_l, H. Qed.

Lemma part_elem e t tr : part t tr -> e ∈ t -> e ∈ tr.
Proof.
  intros (l & r & ->) He. rewrite !elem_of_app. right. left. exact He.
Qed.

Lemma part_refl t : part t t.
Proof. exists [], []. rewrite app_nil_r. reflexivity. Qed.

Lemma part_app_l t t1 t2 : part t t1 -> part t (t1 ++ t2).
Proof.
  intros (l & r & ->). exists l, (r ++ t2). rewrite <- !app_assoc. reflexivity.
Qed.

Lemma part_app_r t t1 t2 : part t t2 -> part t (t1 ++ t2).
Proof.
  intros (l & r & ->). exists (t1 ++ l), r. rewrite <- !app_assoc. reflexivity.
Qed.

(** The release of each child is a contiguous part of the release of the
    sequence it belongs to. *)
Lemma release_all_part cs tr c :
  release_all cs = Some tr -> c ∈ cs ->
  exists tc, release_node c = Some tc /\ part tc tr.
Proof.
  revert tr. induction cs as [|c0 cs IH]; simpl; intros tr Htr Hc.
  - apply elem_of_nil in Hc. contradiction.
  - destruct (release_node c0) as [t1|] eqn:H1; [|discriminate].
    destruct (release_all cs) as [t2|]; [|discriminate].
    injection Htr as <-. apply elem_of_cons in Hc as [->|Hc].
    + exists t1. split; [exact H1 | apply part_app_l, part_refl].
    + destruct (IH t2 eq_refl Hc) as (tc & Htc & Hpart).
      exists tc. split; [exact Htc | apply part_app_r, Hpart].
Qed.

(** A release that returns is the node's own steps around the releases of
    its children and of its dictionary. *)
Lemma release_node_root a r cs d tr :
  release_node (Node a r cs d) = Some tr ->
  exists tc td,
    release_all cs = Some tc /\ release_dictionary d = Some td
    /\ tr = root_trace a (tc ++ td).
Proof.
  rewrite release_node_eq.
  destruct (r =? NULL); [discriminate|].
  destruct (release_all cs) as [tc|]; [|discriminate].
  destruct (release_dictionary d) as [td|]; [|discriminate].
  intros Htr. exists tc, td. split; [reflexivity|]. split; [reflexivity|].
  unfold root_trace. rewrite <- app_assoc. congruence.
Qed.

Lemma root_trace_part a body : part body (root_trace a body).
Proof.
  exists [Invoke a], (own_storage a ++ [ClearRelease a; Dealloc a]).
  reflexivity.
Qed.

Lemma root_trace_invoke_first a body e :
  e ∈ body -> before (Invoke a) e (root_trace a body).
Proof.
  intros He. apply before_head. rewrite elem_of_app. left. exact He.
Qed.

Lemma root_trace_clear_after a body e :
  e ∈ body -> before e (ClearRelease a) (root_trace a body).
Proof.
  intros He. unfold root_trace.
  change (before e (ClearRelease a)
            ((Invoke a :: body)
               ++ own_storage a ++ [ClearRelease a; Dealloc a])).
  apply before_across.
  - apply elem_of_cons. right. exact He.
  - rewrite elem_of_app, !elem_of_cons. right. left. reflexivity.
Qed.

Lemma root_trace_dealloc_after a body e :
  e ∈ body -> before e (Dealloc a) (root_trace a body).
Proof.
  intros He. unfold root_trace.
  change (before e (Dealloc a)
            ((Invoke a :: body)
               ++ own_storage a ++ [ClearRelease a; Dealloc a])).
  apply before_across.
  - apply elem_of_cons. right. exact He.
  - rewrite elem_of_app, !elem_of_cons. right. right. left. reflexivity.
Qed.

Lemma root_trace_own_order a body :
  before (Invoke a) (ClearRelease a) (root_trace a body)
  /\ before (ClearRelease a) (Dealloc a) (root_trace a body).
Proof.
  split.
  - exists [], (body ++ own_storage a), [Dealloc a].
    unfold root_trace. simpl. rewrite <- app_assoc. reflexivity.
  - exists (Invoke a :: body ++ own_storage a), [], [].
    unfold root_trace. simpl. rewrite <- app_assoc. reflexivity.
Qed.

Lemma part_trans t1 t2 t3 : part t1 t2 -> part t2 t3 -> part t1 t3.
Proof.
  intros (l & r & ->) (l' & r' & ->). exists (l' ++ l), (r ++ r').
  rewrite <- !app_assoc. reflexivity.
Qed.

(** ** What a node owns *)

Lemma elem_of_flat_map {A B : Type} (f : A -> list B) (l : list A) (y : B) :
  y ∈ flat_map f l <-> exists x, x ∈ l /\ y ∈ f x.
Proof.
  rewrite list_elem_of_In, in_flat_map.
  split; intros (x & Hx & Hy); exists x;
    rewrite ?list_elem_of_In in *; auto.
Qed.

Lemma addrs_cases a r cs d x :
  x ∈ addrs (Node a r cs d)
  <-> x = a \/ exists c, owns cs d c /\ x ∈ addrs c.
Proof.
  rewrite addrs_eq, elem_of_cons, elem_of_app, elem_of_flat_map.
  unfold owns. split.
  - intros [->|[(c & Hc & Hx)|Hx]]; [left; reflexivity|right..].
    + exists c. auto.
    + destruct d as [dn|]; [exists dn; auto|].
      apply elem_of_nil in Hx. contradiction.
  - intros [->|(c & [Hc| ->] & Hx)]; [left; reflexivity|right..].
    + left. exists c. auto.
    + right. exact Hx.
Qed.

Lemma edges_cases a r cs d (x y : Z) :
  (x, y) ∈ edges (Node a r cs d)
  <-> (x = a /\ exists n, owns cs d n /\ y = addr n)
      \/ exists n, owns cs d n /\ (x, y) ∈ edges n.
Proof.
  simpl. rewrite !elem_of_app, elem_of_flat_map.
  change (map (fun c0 => (a, addr c0)) cs) with ((fun c0 => (a, addr c0)) <$> cs).
  rewrite list_elem_of_fmap. unfold owns. split.
  - intros [(n & [= -> ->] & Hn)|[(n & Hn & He)|He]].
    + left. split; [reflexivity|]. exists n. auto.
    + right. exists n. auto.
    + destruct d as [dn|]; [|apply elem_of_nil in He; contradiction].
      apply elem_of_cons in He as [[= -> ->]|He].
      * left. split; [reflexivity|]. exists dn. auto.
      * right. exists dn. auto.
  - intros [(-> & n & [Hn| ->] & ->)|(n & [Hn| ->] & He)].
    + left. exists n. auto.
    + right. right. apply elem_of_cons. left. reflexivity.
    + right. left. exists n. auto.
    + right. right. apply elem_of_cons. right. exact He.
Qed.

Lemma owns_ind (P : node -> Prop) cs d c :
  Forall P cs -> match d with Some dn => P dn | None => True end ->
  owns cs d c -> P c.
Proof.
  intros Hcs Hd [Hc| ->].
  - rewrite Forall_forall in Hcs. apply Hcs, Hc.
  - exact Hd.
Qed.

(** The release of whatever a node owns is a contiguous part of what happens
    between the node's [Invoke] and the freeing of its own storage. *)
Lemma owns_part cs d tc td c :
  release_all cs = Some tc -> release_dictionary d = Some td ->
  owns cs d c ->
  exists t, release_node c = Some t /\ part t (tc ++ td).
Proof.
  intros Hcs Hd [Hc| ->].
  - destruct (release_all_part cs tc c Hcs Hc) as (t & Ht & Hp).
    exists t. split; [exact Ht | apply part_app_l, Hp].
  - exists td. split; [exact Hd | apply part_app_r, part_refl].
Qed.

Lemma release_node_invoke_in n tr :
  release_node n = Some tr -> Invoke (addr n) ∈ tr.
Proof.
  intros (mid & ->)%release_node_shape. apply elem_of_cons. left. reflexivity.
Qed.

Lemma release_node_dealloc_in n tr :
  release_node n = Some tr -> Dealloc (addr n) ∈ tr.
Proof.
  intros (mid & ->)%release_node_shape.
  rewrite elem_of_cons, elem_of_app, !elem_of_cons. right. right. right. left.
  reflexivity.
Qed.

(** ** Children before parent *)

Lemma release_node_order n :
  forall tr, release_node n = Some tr ->
  (forall a, a ∈ addrs n ->
     before (Invoke a) (ClearRelease a) tr
     /\ before (ClearRelease a) (Dealloc a) tr)
  /\ (forall x y : Z, (x, y) ∈ edges n ->
        before (Invoke x) (Invoke y) tr
        /\ before (Dealloc y) (ClearRelease x) tr
        /\ before (Dealloc y) (Dealloc x) tr).
Proof.
  induction n as [a r cs d IHcs IHd] using node_ind.
  intros tr Htr.
  apply release_node_root in Htr as (tc & td & Hcs & Hd & ->).
  pose proof (root_trace_part a (tc ++ td)) as Hbody.
  split.
  - intros x [->|(c & Hc & Hx)]%addrs_cases.
    + apply root_trace_own_order.
    + destruct (owns_part cs d tc td c Hcs Hd Hc) as (t & Ht & Hp).
      destruct (owns_ind _ cs d c IHcs IHd Hc t Ht) as [Hown _].
      destruct (Hown x Hx) as [H1 H2].
      split; apply (before_part _ _ t);
        solve [eapply part_trans; eassumption | assumption].
  - intros p q [(-> & n & Hn & ->)|(n & Hn & Hpc)]%edges_cases.
    + destruct (owns_part cs d tc td n Hcs Hd Hn) as (t & Ht & Hp).
      pose proof (part_elem _ _ _ Hp (release_node_invoke_in n t Ht)).
      pose proof (part_elem _ _ _ Hp (release_node_dealloc_in n t Ht)).
      auto using root_trace_invoke_first, root_trace_clear_after,
        root_trace_dealloc_after.
    + destruct (owns_part cs d tc td n Hcs Hd Hn) as (t & Ht & Hp).
      destruct (owns_ind _ cs d n IHcs IHd Hn t Ht) as [_ Hedge].
      destruct (Hedge p q Hpc) as (H1 & H2 & H3).
      repeat split; apply (before_part _ _ t);
        solve [eapply part_trans; eassumption | assumption].
Qed.

(** ** Exactly once *)

Lemma times_app e t1 t2 : times e (t1 ++ t2) = (times e t1 + times e t2)%nat.
Proof. apply count_occ_app. Qed.

Lemma times_absent e tr : e ∉ tr -> times e tr = 0%nat.
Proof.
  intros He. apply count_occ_not_In. rewrite <- list_elem_of_In. exact He.
Qed.

Lemma times_same e : times e [e] = 1%nat.
Proof. unfold times. rewrite count_occ_cons_eq; reflexivity. Qed.

Lemma times_other e e' : e ≠ e' -> times e [e'] = 0%nat.
Proof.
  intros Hne. apply times_absent. rewrite list_elem_of_singleton. exact Hne.
Qed.

(** A step of a node outside [X] does not happen in a run whose steps all
    belong to nodes of [X]. *)
Lemma times_elsewhere (X : list Z) e tr :
  (forall e', e' ∈ tr -> step_addr e' ∈ X) -> step_addr e ∉ X ->
  times e tr = 0%nat.
Proof. intros Hin Hout. apply times_absent. intros He. apply Hout, Hin, He. Qed.

Lemma times_own_storage e a : node_step e = true -> times e (own_storage a) = 0%nat.
Proof.
  intros He. apply times_absent. unfold own_storage.
  rewrite !elem_of_cons, elem_of_nil.
  intros [->|[->|[->|[->|[->|[]]]]]]; discriminate He.
Qed.

Lemma times_root e a body :
  node_step e = true ->
  times e (root_trace a body)
  = (times e [Invoke a] + times e body
     + times e [ClearRelease a] + times e [Dealloc a])%nat.
Proof.
  intros He. unfold root_trace.
  change (Invoke a :: body ++ own_storage a ++ [ClearRelease a; Dealloc a])
    with ([Invoke a] ++ body ++ own_storage a
            ++ [ClearRelease a] ++ [Dealloc a]).
  rewrite !times_app, (times_own_storage e a He). lia.
Qed.

(** The three once-per-node steps of the root itself. *)
Lemma times_root_steps e a :
  node_step e = true -> step_addr e = a ->
  (times e [Invoke a] + times e [ClearRelease a] + times e [Dealloc a] = 1)%nat.
Proof.
  intros He <-. destruct e as [x|x w|x|x]; cbn [step_addr];
    [|discriminate He| |].
  - rewrite times_same, !times_other by discriminate. reflexivity.
  - rewrite times_same, !times_other by discriminate. reflexivity.
  - rewrite times_same, !times_other by discriminate. reflexivity.
Qed.

Lemma times_not_root e a :
  step_addr e ≠ a ->
  (times e [Invoke a] + times e [ClearRelease a] + times e [Dealloc a] = 0)%nat.
Proof.
  intros Hne. rewrite !times_other; [reflexivity|..]; intros ->; apply Hne;
    reflexivity.
Qed.

Lemma release_all_steps cs tr e :
  release_all cs = Some tr -> e ∈ tr -> step_addr e ∈ flat_map addrs cs.
Proof.
  intros Htr He. eapply release_all_addrs; [|exact Htr|exact He].
  apply Forall_forall. intros c _. apply release_node_addrs.
Qed.

Lemma release_all_once cs :
  Forall (fun c => forall tr, release_node c = Some tr -> NoDup (addrs c) ->
                   forall e, node_step e = true -> step_addr e ∈ addrs c ->
                             times e tr = 1%nat) cs ->
  forall tr, release_all cs = Some tr -> NoDup (flat_map addrs cs) ->
  forall e, node_step e = true -> step_addr e ∈ flat_map addrs cs ->
            times e tr = 1%nat.
Proof.
  induction 1 as [|c cs Hc _ IH]; simpl; intros tr Htr Hnd e He Hin.
  - apply elem_of_nil in Hin. contradiction.
  - destruct (release_node c) as [t1|] eqn:H1; [|discriminate].
    destruct (release_all cs) as [t2|] eqn:H2; [|discriminate].
    injection Htr as <-.
    apply NoDup_app in Hnd as (Hnd1 & Hdisj & Hnd2).
    rewrite times_app. apply elem_of_app in Hin as [Hin|Hin].
    + rewrite (Hc t1 eq_refl Hnd1 e He Hin).
      rewrite (times_elsewhere (flat_map addrs cs) e t2); [reflexivity| |].
      * intros e'. apply release_all_steps. exact H2.
      * apply Hdisj, Hin.
    + rewrite (IH t2 eq_refl Hnd2 e He Hin).
      rewrite (times_elsewhere (addrs c) e t1); [reflexivity| |].
      * intros e'. apply release_node_addrs. exact H1.
      * intros Hc'. exact (Hdisj _ Hc' Hin).
Qed.

Lemma release_node_once n :
  forall tr, release_node n = Some tr -> NoDup (addrs n) ->
  forall e, node_step e = true -> step_addr e ∈ addrs n ->
            times e tr = 1%nat.
Proof.
  induction n as [a r cs d IHcs IHd] using node_ind.
  intros tr Htr Hnd e He Hin.
  apply release_node_root in Htr as (tc & td & Hcs & Hd & ->).
  rewrite addrs_eq in Hnd, Hin.
  apply NoDup_cons in Hnd as [Ha Hnd].
  apply NoDup_app in Hnd as (Hnd1 & Hdisj & Hnd2).
  rewrite times_root, times_app by exact He.
  apply elem_of_cons in Hin as [Hin|Hin].
  - pose proof (times_root_steps e a He Hin) as Hroot.
    rewrite (times_elsewhere (flat_map addrs cs) e tc), 
      (times_elsewhere (match d with Some dn => addrs dn | None => [] end) e td).
    + lia.
    + intros e'. apply release_dictionary_addrs. exact Hd.
    + rewrite Hin. intros Hbad. apply Ha, elem_of_app. right. exact Hbad.
    + intros e'. apply release_all_steps. exact Hcs.
    + rewrite Hin. intros Hbad. apply Ha, elem_of_app. left. exact Hbad.
  - assert (Hne : step_addr e ≠ a) by (intros Heq; apply Ha; rewrite <- Heq; exact Hin).
    pose proof (times_not_root e a Hne) as Hroot.
    apply elem_of_app in Hin as [Hin|Hin].
    + rewrite (release_all_once cs IHcs tc Hcs Hnd1 e He Hin).
      rewrite (times_elsewhere (match d with Some dn => addrs dn | None => [] end) e td).
      * lia.
      * intros e'. apply release_dictionary_addrs. exact Hd.
      * apply Hdisj, Hin.
    + rewrite (times_elsewhere (flat_map addrs cs) e tc).
      * destruct d as [dn|]; [|apply elem_of_nil in Hin; contradiction].
        simpl in Hd. rewrite (IHd td Hd Hnd2 e He Hin). lia.
      * intros e'. apply release_all_steps. exact Hcs.
      * intros Hc'. exact (Hdisj _ Hc' Hin).
Qed.

End ReleaseFacts.

Section ReleaseClaims.

Import ReleaseProtocol.

Example release_demo_tree :
  release_node demo_tree
  = Some ([Invoke 4096;
           Invoke 4352] ++ own_storage 4352
            ++ [ClearRelease 4352; Dealloc 4352;
                Invoke 4608;
                Invoke 4864] ++ own_storage 4864
            ++ [ClearRelease 4864; Dealloc 4864;
                Invoke 5120] ++ own_storage 5120
            ++ [ClearRelease 5120; Dealloc 5120] ++ own_storage 4608
            ++ [ClearRelease 4608; Dealloc 4608] ++ own_storage 4096
            ++ [ClearRelease 4096; Dealloc 4096]).
Proof. reflexivity. Qed.

(** Without exclusive ownership the shared child is released twice. *)
Example release_demo_shared :
  exists tr, release_node demo_shared = Some tr
             /\ times (Dealloc 4352) tr = 2%nat.
Proof. eexists. split; reflexivity. Qed.

(** Invoking the release of a node that is not live is misuse. *)
Example release_demo_moved_child : release_node demo_moved_child = None.
Proof. reflexivity. Qed.

(** C3: releasing a live node whose ownership tree is exclusive (no node
    owned twice) returns, and in the run every step belongs to a node of the
    tree; each node of the tree, the root and everything it owns
    transitively through children and dictionaries, is entered exactly once,
    has its [release] set to null exactly once and is deallocated exactly
    once, in that order; and along every ownership edge the owned node is
    entered after its owner and is deallocated before its owner clears its
    own [release] and is deallocated. *)
Theorem release_once_children_first
  (n : node) (Hlive : live n = true) (Hexclusive : NoDup (addrs n)) :
  exists tr,
    release_node n = Some tr
    /\ (forall e, e ∈ tr -> step_addr e ∈ addrs n)
    /\ (forall a, a ∈ addrs n ->
          times (Invoke a) tr = 1%nat
          /\ times (ClearRelease a) tr = 1%nat
          /\ times (Dealloc a) tr = 1%nat
          /\ before (Invoke a) (ClearRelease a) tr
          /\ before (ClearRelease a) (Dealloc a) tr)
    /\ (forall x y : Z, (x, y) ∈ edges n ->
          before (Invoke x) (Invoke y) tr
          /\ before (Dealloc y) (ClearRelease x) tr
          /\ before (Dealloc y) (Dealloc x) tr).
Proof.
  destruct (release_node_live n Hlive) as [tr Htr].
  destruct (release_node_order n tr Htr) as [Hown Hedges].
  exists tr. split; [exact Htr|].
  split; [apply release_node_addrs; exact Htr|].
  split; [|exact Hedges].
  intros a Ha. destruct (Hown a Ha) as [H1 H2].
  repeat split; try assumption;
    apply (release_node_once n tr Htr Hexclusive); auto.
Qed.

Lemma release_once_children_first_witness :
  live demo_tree = true
  /\ NoDup (addrs demo_tree)
  /\ exists tr,
      release_node demo_tree = Some tr
      /\ (forall e, e ∈ tr -> step_addr e ∈ addrs demo_tree)
      /\ (forall a, a ∈ addrs demo_tree ->
            times (Invoke a) tr = 1%nat
            /\ times (ClearRelease a) tr = 1%nat
            /\ times (Dealloc a) tr = 1%nat
            /\ before (Invoke a) (ClearRelease a) tr
            /\ before (ClearRelease a) (Dealloc a) tr)
      /\ (forall x y : Z, (x, y) ∈ edges demo_tree ->
            before (Invoke x) (Invoke y) tr
            /\ before (Dealloc y) (ClearRelease x) tr
            /\ before (Dealloc y) (Dealloc x) tr).
Proof.
  assert (Hlive : live demo_tree = true) by reflexivity.
  assert (Hexclusive : NoDup (addrs demo_tree)) by (vm_compute; compute_done).
  split; [exact Hlive|]. split; [exact Hexclusive|].
  exact (release_once_children_first demo_tree Hlive Hexclusive).
Defined.

End ReleaseClaims.

(** * The adapter under composition *)

Section AdapterComposition.

Implicit Types (h : gmap Z object) (p q : Z).

(** Each operation, spelled out by cases on its argument. *)
Lemma clear_schema_run h p :
  ArrowSwiftClearReleaseSchema p h
  = if nonnull p
    then match h !! p with
         | Some (OSchema s) =>
             Returns tt (<[p := OSchema (ArrowSchema.set_release s NULL)]> h)
                     [EvStore p "release" NULL]
         | _ => Undefined
         end
    else Returns tt h [].
Proof.
  unfold ArrowSwiftClearReleaseSchema, store_schema_release, ret.
  destruct (nonnull p); reflexivity.
Qed.

Lemma clear_array_run h p :
  ArrowSwiftClearReleaseArray p h
  = if nonnull p
    then match h !! p with
         | Some (OArray a) =>
             Returns tt (<[p := OArray (ArrowArray.set_release a NULL)]> h)
                     [EvStore p "release" NULL]
         | _ => Undefined
         end
    else Returns tt h [].
Proof.
  unfold ArrowSwiftClearReleaseArray, store_array_release, ret.
  destruct (nonnull p); reflexivity.
Qed.

Lemma schema_set_release_id s :
  ArrowSchema.release s = NULL -> ArrowSchema.set_release s NULL = s.
Proof. destruct s. simpl. intros ->. reflexivity. Qed.

Lemma array_set_release_id a :
  ArrowArray.release a = NULL -> ArrowArray.set_release a NULL = a.
Proof. destruct a. simpl. intros ->. reflexivity. Qed.

(** Overwriting a descriptor by one of the same struct type keeps what every
    reference may be used as. *)
Lemma valid_schema_ref_overwrite h p (o o' : object) q :
  h !! p = Some o ->
  (forall s, o = OSchema s -> exists s', o' = OSchema s') ->
  (forall s', o' = OSchema s' -> exists s, o = OSchema s) ->
  valid_schema_ref (<[p := o']> h) q <-> valid_schema_ref h q.
Proof.
  intros Hp Hfw Hbw. unfold valid_schema_ref.
  destruct (decide (q = p)) as [->|Hne].
  - rewrite lookup_insert_eq, Hp. split; (intros [Hn|[s Hs]]; [left; exact Hn|right]).
    + injection Hs as ->. destruct (Hbw s eq_refl) as [s0 ->]. eauto.
    + injection Hs as ->. destruct (Hfw s eq_refl) as [s' ->]. eauto.
  - rewrite lookup_insert_ne by congruence. reflexivity.
Qed.

Lemma valid_array_ref_overwrite h p (o o' : object) q :
  h !! p = Some o ->
  (forall a, o = OArray a -> exists a', o' = OArray a') ->
  (forall a', o' = OArray a' -> exists a, o = OArray a) ->
  valid_array_ref (<[p := o']> h) q <-> valid_array_ref h q.
Proof.
  intros Hp Hfw Hbw. unfold valid_array_ref.
  destruct (decide (q = p)) as [->|Hne].
  - rewrite lookup_insert_eq, Hp. split; (intros [Hn|[a Ha]]; [left; exact Hn|right]).
    + injection Ha as ->. destruct (Hbw a eq_refl) as [a0 ->]. eauto.
    + injection Ha as ->. destruct (Hfw a eq_refl) as [a' ->]. eauto.
  - rewrite lookup_insert_ne by congruence. reflexivity.
Qed.

(** X1: two clear operations commute: in whichever order two of them run, on
    the same or on different references, of the same or of different struct
    types, the memory they end in is the same, and the one order is undefined
    exactly when the other is. *)
Theorem clear_release_commute h p q :
  final_heap ((ArrowSwiftClearReleaseSchema p ;;
               ArrowSwiftClearReleaseSchema q)%C h)
  = final_heap ((ArrowSwiftClearReleaseSchema q ;;
                 ArrowSwiftClearReleaseSchema p)%C h)
  /\
  final_heap ((ArrowSwiftClearReleaseArray p ;;
               ArrowSwiftClearReleaseArray q)%C h)
  = final_heap ((ArrowSwiftClearReleaseArray q ;;
                 ArrowSwiftClearReleaseArray p)%C h)
  /\
  final_heap ((ArrowSwiftClearReleaseSchema p ;;
               ArrowSwiftClearReleaseArray q)%C h)
  = final_heap ((ArrowSwiftClearReleaseArray q ;;
                 ArrowSwiftClearReleaseSchema p)%C h).
Proof.
  unfold bind. rewrite !clear_schema_run, !clear_array_run.
  destruct (decide (p = q)) as [->|Hne].
  - split; [reflexivity|]. split; [reflexivity|].
    destruct (nonnull q) eqn:Hq; destruct (h !! q) as [[s|a]|] eqn:Hhq; simpl;
      rewrite ?clear_schema_run, ?clear_array_run, ?Hq, ?lookup_insert_eq, ?Hhq;
      reflexivity.
  - repeat split.
    all: destruct (nonnull p) eqn:Hp, (nonnull q) eqn:Hq;
      destruct (h !! p) as [[sp|ap]|] eqn:Hhp;
      destruct (h !! q) as [[sq|aq]|] eqn:Hhq; simpl;
      rewrite ?clear_schema_run, ?clear_array_run, ?Hp, ?Hq;
      rewrite ?lookup_insert_ne by congruence;
      rewrite ?Hhp, ?Hhq; simpl; try reflexivity.
    all: f_equal; apply insert_insert_ne; congruence.
Qed.

Example clear_release_commute_demo :
  final_heap ((ArrowSwiftClearReleaseSchema 4096 ;;
               ArrowSwiftClearReleaseArray 12288)%C demo_heap)
  = Some (<[4096 := OSchema (ArrowSchema.set_release demo_schema NULL)]>
            (<[12288 := OArray (ArrowArray.set_release demo_array NULL)]>
               demo_heap)).
Proof. vm_compute. reflexivity. Qed.

(** X2: a clear operation that returns keeps every reference usable as what
    it was usable as before: an address holds a schema descriptor afterwards
    exactly when it did before, and likewise for array descriptors, so no
    reference is left dangling or changes its struct type. *)
Theorem clear_release_keeps_references_valid
  h h' p q (tr : list event)
  (Hrun : ArrowSwiftClearReleaseSchema p h = Returns tt h' tr
          \/ ArrowSwiftClearReleaseArray p h = Returns tt h' tr) :
  (valid_schema_ref h' q <-> valid_schema_ref h q)
  /\ (valid_array_ref h' q <-> valid_array_ref h q).
Proof.
  destruct Hrun as [Hrun | Hrun].
  - apply clear_schema_returns in Hrun
      as [(-> & -> & ->) | (Hp & s & Hs & -> & ->)]; [split; reflexivity|].
    split.
    + eapply valid_schema_ref_overwrite; [exact Hs| |]; eauto.
    + eapply valid_array_ref_overwrite; [exact Hs| |]; discriminate.
  - apply clear_array_returns in Hrun
      as [(-> & -> & ->) | (Hp & a & Ha & -> & ->)]; [split; reflexivity|].
    split.
    + eapply valid_schema_ref_overwrite; [exact Ha| |]; discriminate.
    + eapply valid_array_ref_overwrite; [exact Ha| |]; eauto.
Qed.

Lemma clear_release_keeps_references_valid_witness :
  let h' := <[4096 := OSchema (ArrowSchema.set_release demo_schema NULL)]> demo_heap in
  ArrowSwiftClearReleaseSchema 4096 demo_heap
  = Returns tt h' [EvStore 4096 "release" NULL]
  /\ (valid_schema_ref h' 4352 <-> valid_schema_ref demo_heap 4352)
  /\ (valid_array_ref h' 4352 <-> valid_array_ref demo_heap 4352).
Proof.
  intros h'.
  assert (Hrun : ArrowSwiftClearReleaseSchema 4096 demo_heap
                 = Returns tt h' [EvStore 4096 "release" NULL]) by reflexivity.
  split; [exact Hrun|].
  exact (clear_release_keeps_references_valid
           demo_heap h' 4096 4352 _ (or_introl Hrun)).
Defined.

(** X3: clearing a schema reference and then an array reference, each null
    or pointing to a descriptor of its type, returns; the run stores NULL to
    the [release] of each non-null reference, in call order, and does
    nothing else; both descriptors end with a null [release] and otherwise
    as they were, every other address keeps its content and nothing is
    deallocated. *)
Theorem clear_schema_then_array
  h p q (Hp : valid_schema_ref h p) (Hq : valid_array_ref h q) :
  exists h',
    (ArrowSwiftClearReleaseSchema p ;; ArrowSwiftClearReleaseArray q)%C h
    = Returns tt h'
        ((if nonnull p then [EvStore p "release" NULL] else [])
           ++ (if nonnull q then [EvStore q "release" NULL] else []))
    /\ (p ≠ NULL ->
        exists s, h !! p = Some (OSchema s)
                  /\ h' !! p = Some (OSchema (ArrowSchema.set_release s NULL)))
    /\ (q ≠ NULL ->
        exists a, h !! q = Some (OArray a)
                  /\ h' !! q = Some (OArray (ArrowArray.set_release a NULL)))
    /\ (forall r, r ≠ p -> r ≠ q -> h' !! r = h !! r)
    /\ dom h' = dom h.
Proof.
  unfold bind. rewrite clear_schema_run.
  destruct (nonnull p) eqn:Hnp.
  - destruct Hp as [-> | [s Hs]]; [discriminate Hnp|]. rewrite Hs.
    rewrite clear_array_run. destruct (nonnull q) eqn:Hnq.
    + destruct Hq as [-> | [a Ha]]; [discriminate Hnq|].
      assert (Hne : p ≠ q) by congruence.
      rewrite lookup_insert_ne by exact Hne. rewrite Ha.
      eexists. split; [reflexivity|].
      split; [intros _; exists s; split; [solve [exact Hs | reflexivity]|];
              rewrite lookup_insert_ne by congruence; apply lookup_insert_eq|].
      split; [intros _; exists a; split; [solve [exact Ha | reflexivity]|]; apply lookup_insert_eq|].
      split.
      * intros r Hrp Hrq. rewrite !lookup_insert_ne by congruence. reflexivity.
      * rewrite (dom_overwrite _ q (OArray a)).
        -- eapply dom_overwrite; exact Hs.
        -- rewrite lookup_insert_ne by exact Hne. exact Ha.
    + apply nonnull_false in Hnq. subst q.
      eexists. split; [reflexivity|].
      split; [intros _; exists s; split; [solve [exact Hs | reflexivity]|]; apply lookup_insert_eq|].
      split; [intros Hbad; contradiction Hbad; reflexivity|].
      split.
      * intros r Hrp _. apply lookup_insert_ne. congruence.
      * eapply dom_overwrite; exact Hs.
  - apply nonnull_false in Hnp. subst p.
    rewrite clear_array_run. destruct (nonnull q) eqn:Hnq.
    + destruct Hq as [-> | [a Ha]]; [discriminate Hnq|]. rewrite Ha.
      eexists. split; [reflexivity|].
      split; [intros Hbad; contradiction Hbad; reflexivity|].
      split; [intros _; exists a; split; [solve [exact Ha | reflexivity]|]; apply lookup_insert_eq|].
      split.
      * intros r _ Hrq. apply lookup_insert_ne. congruence.
      * eapply dom_overwrite; exact Ha.
    + apply nonnull_false in Hnq. subst q.
      exists h. split; [reflexivity|].
      split; [intros Hbad; contradiction Hbad; reflexivity|].
      split; [intros Hbad; contradiction Hbad; reflexivity|].
      split; [reflexivity|reflexivity].
Qed.

Lemma clear_schema_then_array_witness :
  valid_schema_ref demo_heap 4096
  /\ valid_array_ref demo_heap 12288
  /\ exists h',
      (ArrowSwiftClearReleaseSchema 4096 ;;
       ArrowSwiftClearReleaseArray 12288)%C demo_heap
      = Returns tt h'
          ((if nonnull 4096 then [EvStore 4096 "release" NULL] else [])
             ++ (if nonnull 12288 then [EvStore 12288 "release" NULL] else []))
      /\ (4096 ≠ NULL ->
          exists s, demo_heap !! 4096 = Some (OSchema s)
                    /\ h' !! 4096
                       = Some (OSchema (ArrowSchema.set_release s NULL)))
      /\ (12288 ≠ NULL ->
          exists a, demo_heap !! 12288 = Some (OArray a)
                    /\ h' !! 12288
                       = Some (OArray (ArrowArray.set_release a NULL)))
      /\ (forall r, r ≠ 4096 -> r ≠ 12288 -> h' !! r = demo_heap !! r)
      /\ dom h' = dom demo_heap.
Proof.
  assert (Hs : valid_schema_ref demo_heap 4096)
    by (right; exists demo_schema; reflexivity).
  assert (Ha : valid_array_ref demo_heap 12288)
    by (right; exists demo_array; reflexivity).
  split; [exact Hs|]. split; [exact Ha|].
  exact (clear_schema_then_array demo_heap 4096 12288 Hs Ha).
Defined.

(** X4: a clear operation that returns leaves the memory exactly as it was
    if and only if its argument is null or the descriptor it points to
    already had a null [release]; and it stores to memory whenever its
    argument is non-null, also when [release] is null already (the code
    tests the pointer, not the field). *)
Theorem clear_release_unchanged_iff
  h h' p (tr : list event)
  (Hrun : ArrowSwiftClearReleaseSchema p h = Returns tt h' tr
          \/ ArrowSwiftClearReleaseArray p h = Returns tt h' tr) :
  (h' = h <-> p = NULL \/ exists o, h !! p = Some o /\ non_owning o)
  /\ (tr = [] <-> p = NULL)
  /\ (p ≠ NULL -> tr = [EvStore p "release" NULL]).
Proof.
  destruct Hrun as [Hrun | Hrun].
  - apply clear_schema_returns in Hrun
      as [(-> & -> & ->) | (Hp & s & Hs & -> & ->)].
    + split; [split; auto|]. split; [split; auto|].
      intros Hbad. contradiction Hbad. reflexivity.
    + split; [|split; [split; [discriminate|contradiction]|reflexivity]].
      split.
      * intros Heq. right. exists (OSchema s). split; [exact Hs|].
        assert (Hl : <[p := OSchema (ArrowSchema.set_release s NULL)]> h !! p
                     = Some (OSchema s)) by (rewrite Heq; exact Hs).
        rewrite lookup_insert_eq in Hl. injection Hl as Hl.
        unfold non_owning. simpl. rewrite <- Hl. reflexivity.
      * intros [Hn | (o & Ho & Hnull)]; [contradiction|].
        rewrite Hs in Ho. injection Ho as <-.
        unfold non_owning in Hnull. simpl in Hnull.
        rewrite (schema_set_release_id s Hnull). apply insert_id. exact Hs.
  - apply clear_array_returns in Hrun
      as [(-> & -> & ->) | (Hp & a & Ha & -> & ->)].
    + split; [split; auto|]. split; [split; auto|].
      intros Hbad. contradiction Hbad. reflexivity.
    + split; [|split; [split; [discriminate|contradiction]|reflexivity]].
      split.
      * intros Heq. right. exists (OArray a). split; [exact Ha|].
        assert (Hl : <[p := OArray (ArrowArray.set_release a NULL)]> h !! p
                     = Some (OArray a)) by (rewrite Heq; exact Ha).
        rewrite lookup_insert_eq in Hl. injection Hl as Hl.
        unfold non_owning. simpl. rewrite <- Hl. reflexivity.
      * intros [Hn | (o & Ho & Hnull)]; [contradiction|].
        rewrite Ha in Ho. injection Ho as <-.
        unfold non_owning in Hnull. simpl in Hnull.
        rewrite (array_set_release_id a Hnull). apply insert_id. exact Ha.
Qed.

Lemma clear_release_unchanged_iff_witness :
  let h' := <[4096 := OSchema (ArrowSchema.set_release demo_schema NULL)]> demo_heap in
  let tr := [EvStore 4096 "release" NULL] in
  ArrowSwiftClearReleaseSchema 4096 demo_heap = Returns tt h' tr
  /\ (h' = demo_heap
      <-> 4096 = NULL \/ exists o, demo_heap !! 4096 = Some o /\ non_owning o)
  /\ (tr = [] <-> 4096 = NULL)
  /\ (4096 ≠ NULL -> tr = [EvStore 4096 "release" NULL]).
Proof.
  intros h' tr.
  assert (Hrun : ArrowSwiftClearReleaseSchema 4096 demo_heap = Returns tt h' tr)
    by reflexivity.
  split; [exact Hrun|].
  exact (clear_release_unchanged_iff demo_heap h' 4096 tr (or_introl Hrun)).
Defined.

End AdapterComposition.
